(** * GraphQLClientApp: cache reconciliation of the todo list (src/App.tsx)

    A shallow embedding of the three [update] callbacks that [App] registers
    with [useMutation], of the intent functions [onToggle], [onAdd] and
    [onRemove], and of the display sort of [TodoList], followed by the
    properties of the cache they maintain. *)

From stdpp Require Import gmap strings list.

(** ** Data model *)

(** [interface Todo { id: string; text: string; completed: boolean }] *)
Record Todo := mkTodo {
  id : string;
  text : string;
  completed : bool
}.

#[global] Instance Todo_eq_dec : EqDecision Todo.
Proof. solve_decision. Defined.

(** The value [cache.readQuery<{ todos: Todo[] }>] hands back when the query
    has a result. *)
Record QueryResult := mkQueryResult {
  todos : list Todo
}.

(** The [data] object given to [cache.writeQuery]. Its [todos] property is
    built with optional chaining in two of the three callbacks, so it is
    [Todo[] | undefined]; [None] stands for [undefined]. *)
Record WriteData := mkWriteData {
  data_todos : option (list Todo)
}.

(** Payloads of the three mutations, as selected by the GraphQL documents
    [ADD_TODO_MUTATION], [EDIT_TODO_MUTATION] and [DELETE_TODO_MUTATION]. *)
Record AddTodoData := mkAddTodoData {
  addTodo : Todo
}.

Record EditTodoData := mkEditTodoData {
  editTodo_id : string;
  editTodo_completed : bool
}.

Record DeleteTodoData := mkDeleteTodoData {
  deleteTodo_id : string
}.

(** ** The cache store *)

(** Modelled from the spec: the cache store of section 4.1, which in the
    program is the cache object of [@apollo/client] handed to every [update]
    callback and is not part of src/. [stored] is the result held for
    [TODOS_QUERY] ([None]: no result established, [readQuery] answers
    [null]); [writes] records, oldest first, every [data] object passed to
    [writeQuery], so that "the value written back" can be stated. *)
Record Cache := mkCache {
  stored : option QueryResult;
  writes : list WriteData
}.

(** Callbacks run against the cache: a state monad over [Cache]. *)
Definition Upd (A : Type) : Type := Cache → A * Cache.

Definition upd_ret {A} (a : A) : Upd A := λ c, (a, c).

Definition upd_bind {A B} (m : Upd A) (k : A → Upd B) : Upd B :=
  λ c, let '(a, c') := m c in k a c'.

Notation "'let!' x ':=' m 'in' k" := (upd_bind m (λ x, k))
  (at level 10, x name, m at level 100, k at level 200).
Notation "m ';;;' k" := (upd_bind m (λ _, k))
  (at level 100, k at level 200, right associativity).

Definition exec {A} (m : Upd A) (c : Cache) : Cache := snd (m c).
Definition eval {A} (m : Upd A) (c : Cache) : A := fst (m c).

(** Modelled from the spec: [read] of section 4.1, the program's
    [cache.readQuery({ query: TODOS_QUERY })]: the stored result or [null];
    no effect on the cache. *)
Definition readQuery : Upd (option QueryResult) := λ c, (stored c, c).

(** Modelled from the spec: [write] of section 4.1, the program's
    [cache.writeQuery({ query: TODOS_QUERY, data })]: replaces the stored
    result by the [todos] of [data]. The specification is silent on a [data]
    whose [todos] is [undefined]; it carries no sequence, and here it
    establishes none: the stored result stays as it was. The callbacks below
    produce [undefined] only when nothing is stored, where keeping and
    clearing the stored result are the same. *)
Definition writeQuery (data : WriteData) : Upd unit := λ c,
  (tt, {| stored := match data_todos data with
                    | Some l => Some (mkQueryResult l)
                    | None => stored c
                    end;
          writes := writes c ++ [data] |}).

(** ** The mutation reconcilers (the [update] callbacks of [App]) *)

(** [update(cache, { data: { addTodo } })] of [ADD_TODO_MUTATION]:
    [todos: query?.todos.concat([addTodo])]. *)
Definition addTodo_update (data : AddTodoData) : Upd unit :=
  let! query := readQuery in
  writeQuery {| data_todos := (λ q, todos q ++ [addTodo data]) <$> query |}.

(** [update(cache)] of [EDIT_TODO_MUTATION]; the mutation payload is not
    looked at: [const todos = query?.todos || []]. *)
Definition editTodo_update (_ : EditTodoData) : Upd unit :=
  let! query := readQuery in
  let todos' := default [] (todos <$> query) in
  writeQuery {| data_todos := Some todos' |}.

(** [update(cache, { data: { deleteTodo } })] of [DELETE_TODO_MUTATION]:
    [todos: query?.todos.filter((t) => t.id !== deleteTodo.id)]. *)
Definition deleteTodo_update (data : DeleteTodoData) : Upd unit :=
  let! query := readQuery in
  writeQuery
    {| data_todos :=
         (λ q, filter (λ t, id t ≠ deleteTodo_id data) (todos q)) <$> query |}.

(** A cache whose query result is the sequence [X]. *)
Definition established (X : list Todo) (c : Cache) : Prop :=
  stored c = Some (mkQueryResult X).

(** The last [data] object handed to [writeQuery]. *)
Definition last_write (c : Cache) : option WriteData := last (writes c).

(** Runs the add reconciler once per payload, in list order. *)
Fixpoint addTodo_updates (es : list Todo) : Upd unit :=
  match es with
  | [] => upd_ret tt
  | e :: es' => addTodo_update (mkAddTodoData e) ;;; addTodo_updates es'
  end.

(** ** Running a mutation *)

(** What the remote API answered to one mutation. *)
Inductive Outcome (R : Type) : Type :=
  | Success (data : R)
  | Failure (error : string).
Arguments Success {R} data.
Arguments Failure {R} error.

(** The options [App] passes to [useMutation]: an [update] callback and
    nothing else (no optimistic response, no error handler). *)
Record MutationOptions (R : Type) := mkMutationOptions {
  update : R → Upd unit
}.
Arguments update {R} _ _.
Arguments mkMutationOptions {R} _.

(** Modelled from the spec: the mutate function returned by [useMutation]
    of [@apollo/client], which is not part of src/. Sections 6 and 7: on
    success the matching reconciler runs with the payload and the payload is
    the result; on failure no reconciler runs and the failure is the result
    handed to the caller. *)
Definition mutate {R} (opts : MutationOptions R) (o : Outcome R)
  : Upd (string + R) :=
  match o with
  | Success data => update opts data ;;; upd_ret (inr data)
  | Failure error => upd_ret (inl error)
  end.

(** The three mutations of [App]. *)
Definition addTodo_options : MutationOptions AddTodoData :=
  mkMutationOptions addTodo_update.
Definition editTodo_options : MutationOptions EditTodoData :=
  mkMutationOptions editTodo_update.
Definition deleteTodo_options : MutationOptions DeleteTodoData :=
  mkMutationOptions deleteTodo_update.

(** ** Intent functions *)

(** A call of one of the three mutate functions with its [variables]. *)
Inductive MutationCall : Type :=
  | AddTodoCall (text : string)
  | EditTodoCall (id : string) (completed : bool)
  | DeleteTodoCall (id : string).

(** [onToggle = (id, completed) => editTodo({ variables: { id, completed:
    !completed } })]. *)
Definition onToggle (id : string) (completed : bool) : MutationCall :=
  EditTodoCall id (negb completed).

(** [onAdd = (text) => addTodo({ variables: { text } })]. *)
Definition onAdd (text : string) : MutationCall := AddTodoCall text.

(** [onRemove = (id) => deleteTodo({ variables: { id } })]. *)
Definition onRemove (id : string) : MutationCall := DeleteTodoCall id.

(** ** Handlers run to settlement *)

(** The payload type of the mutation a call addresses. *)
Definition Payload (call : MutationCall) : Type :=
  match call with
  | AddTodoCall _ => AddTodoData
  | EditTodoCall _ _ => EditTodoData
  | DeleteTodoCall _ => DeleteTodoData
  end.

(** The options of the [useMutation] whose mutate function the call uses. *)
Definition options_of (call : MutationCall) : MutationOptions (Payload call) :=
  match call with
  | AddTodoCall _ => addTodo_options
  | EditTodoCall _ _ => editTodo_options
  | DeleteTodoCall _ => deleteTodo_options
  end.

(** A handler of [App] run until the remote has answered [o]. The body of
    each handler is the single statement [addTodo({ ... });],
    [editTodo({ ... });] or [deleteTodo({ ... });]: the promise the mutate
    function returns is dropped, [App] destructures only the mutate function
    from [useMutation] and passes no [onError], and the handler itself
    returns [undefined] (the props of [TodoList] and [TodoActions] type the
    handlers [=> void]). *)
Definition settle (call : MutationCall) (o : Outcome (Payload call))
  : Upd unit :=
  let! _ := mutate (options_of call) o in
  upd_ret tt.

(** The caller of a handler can tell, from what the handler hands back,
    a failed mutation from a successful one. *)
Definition failure_surfaced (call : MutationCall) : Prop :=
  ∃ failed : unit → bool,
    (∀ c error, failed (eval (settle call (Failure error)) c) = true)
    ∧ (∀ c data, failed (eval (settle call (Success data)) c) = false).

(** The number of [writeQuery] calls an answer leads to. *)
Definition writes_expected {R} (o : Outcome R) : nat :=
  match o with
  | Success _ => 1
  | Failure _ => 0
  end.

(** ** The display sort *)

(** The comparator given to [todos.sort] in [TodoList]. *)
Definition compareTodos (a b : Todo) : Z :=
  if completed a && negb (completed b) then (-1)%Z
  else if negb (completed a) && completed b then 1%Z
  else 0%Z.

Section ArraySort.
Context {A : Type} (cmp : A → A → Z).

(** Puts [x] in front of the first element it does not compare greater
    than. *)
Fixpoint sort_insert (x : A) (l : list A) : list A :=
  match l with
  | [] => [x]
  | y :: l' =>
      if (cmp x y <=? 0)%Z then x :: y :: l' else y :: sort_insert x l'
  end.

(** [Array.prototype.sort(cmp)], which ECMAScript requires to be stable:
    elements that compare equal keep their order. The order of the result
    under a consistent comparator does not depend on the engine; it is
    computed here by insertion from the right. *)
Fixpoint Array_sort (l : list A) : list A :=
  match l with
  | [] => []
  | x :: l' => sort_insert x (Array_sort l')
  end.

End ArraySort.

(** ** Rendering, with arrays as heap objects *)

(** JavaScript arrays are mutable objects: [sort] reorders its receiver in
    place and the spread [[...xs]] allocates a new array. Arrays live in a
    heap indexed by reference. *)
Abbreviation ref := positive.
Abbreviation Heap := (gmap positive (list Todo)).

(** [[...xs]]: a fresh array with the elements of the array at [xs]. *)
Definition spread (h : Heap) (xs : ref) : option (ref * Heap) :=
  l ← h !! xs;
  let r := fresh (dom h) in
  Some (r, <[r := l]> h).

(** [xs.sort(cmp)]: sorts the array at [xs] in place and returns [xs]. *)
Definition sort_in_place (cmp : Todo → Todo → Z) (h : Heap) (xs : ref)
  : option (ref * Heap) :=
  l ← h !! xs;
  Some (xs, <[xs := Array_sort cmp l]> h).

(** One rendered [ListItem]: the button label, whether the check icon is
    shown, and what the two click handlers issue. *)
Record ListItem := mkListItem {
  item_text : string;
  item_checked : bool;
  item_onClick : MutationCall;
  item_onDelete : MutationCall
}.

Definition render_item (todo : Todo) : ListItem :=
  {| item_text := text todo;
     item_checked := completed todo;
     item_onClick := onToggle (id todo) (completed todo);
     item_onDelete := onRemove (id todo) |}.

(** [TodoList({ todos, ... })]: [const sorted = todos.sort(...)], then one
    [ListItem] per element of [sorted]. *)
Definition TodoList (h : Heap) (todos : ref) : option (list ListItem * Heap) :=
  match sort_in_place compareTodos h todos with
  | Some (sorted, h') =>
      match h' !! sorted with
      | Some l => Some (render_item <$> l, h')
      | None => None
      end
  | None => None
  end.

(** The render of [App] once the query has data: [const todoList =
    [...data.todos]] and [<TodoList todos={todoList} .../>]. [data_todos] is
    the reference of the array held by the cached result. *)
Definition App_render (h : Heap) (data_todos : ref)
  : option (list ListItem * Heap) :=
  match spread h data_todos with
  | Some (todoList, h1) => TodoList h1 todoList
  | None => None
  end.

(** ** Histories of successful mutations *)

(** One successful mutation, with the payload its [update] callback gets. *)
Inductive Reconciliation : Type :=
  | AddSucceeded (data : AddTodoData)
  | EditSucceeded (data : EditTodoData)
  | DeleteSucceeded (data : DeleteTodoData).

(** The [update] callback [App] registered for the mutation. *)
Definition reconcile (r : Reconciliation) : Upd unit :=
  match r with
  | AddSucceeded data => addTodo_update data
  | EditSucceeded data => editTodo_update data
  | DeleteSucceeded data => deleteTodo_update data
  end.

(** The callbacks of a history of successes, oldest first. *)
Fixpoint reconcile_all (rs : list Reconciliation) : Upd unit :=
  match rs with
  | [] => upd_ret tt
  | r :: rs' => reconcile r ;;; reconcile_all rs'
  end.

(** The array expression each callback computes from [query.todos] when the
    query has a result: [concat], the array itself, [filter]. *)
Definition next_todos (X : list Todo) (r : Reconciliation) : list Todo :=
  match r with
  | AddSucceeded data => X ++ [addTodo data]
  | EditSucceeded _ => X
  | DeleteSucceeded data => filter (λ t, id t ≠ deleteTodo_id data) X
  end.

Definition is_edit (r : Reconciliation) : bool :=
  match r with EditSucceeded _ => true | _ => false end.

(** ** The list item key *)

(** [key={`${todo.id}-${todo.text.trim()}`}] in [TodoList]; [trim] stands
    for [String.prototype.trim]. *)
Definition item_key (trim : string → string) (todo : Todo) : string :=
  id todo +:+ "-" +:+ trim (text todo).

(** The character ["-"] does not occur in [s]. *)
Fixpoint dash_free (s : string) : bool :=
  match s with
  | EmptyString => true
  | String a s' => negb (Ascii.eqb a (Ascii.ascii_of_nat 45)) && dash_free s'
  end.

(** ** The input row, [TodoActions] *)

(** What the user does to the row: edit the input ([onChange]) or press
    the Add button ([onClick]). *)
Inductive TodoActionsEvent : Type :=
  | Change (value : string)
  | ClickAdd.

Section TodoActions.
Context {C : Type} (onAdd : string → C).

(** [const [text, setText] = useState("")]. *)
Definition TodoActions_initial : string := "".

(** [onAddItem = () => { onAdd(text); setText('') }]: the call made and
    the next value of [text]. *)
Definition onAddItem (text : string) : list C * string :=
  ([onAdd text], "").

(** One event handled in the render whose state is [text]. *)
Definition TodoActions_handle (text : string) (ev : TodoActionsEvent)
  : list C * string :=
  match ev with
  | Change value => ([], value)
  | ClickAdd => onAddItem text
  end.

(** A session: the calls made, in order, and the final [text]. *)
Fixpoint TodoActions_run (text : string) (evs : list TodoActionsEvent)
  : list C * string :=
  match evs with
  | [] => ([], text)
  | ev :: evs' =>
      let '(calls, text') := TodoActions_handle text ev in
      let '(calls', text'') := TodoActions_run text' evs' in
      (calls ++ calls', text'')
  end.

End TodoActions.

Definition is_click (ev : TodoActionsEvent) : bool :=
  match ev with ClickAdd => true | Change _ => false end.

(** ** The [App] component *)

Record ApolloError := mkApolloError {
  message : string
}.

(** [const { loading, error, data } = useQuery(TODOS_QUERY)]; [data] is
    [undefined] or an object whose [todos] is the reference given here. *)
Record QueryHook := mkQueryHook {
  loading : bool;
  error : option ApolloError;
  data : option ref
}.

(** What [App] returns: the loading text, the error text with the message,
    or the page with the rendered list. *)
Inductive AppView : Type :=
  | LoadingView
  | ErrorView (message : string)
  | TodoPage (items : list ListItem).

(** [App()]: the two early returns, then [[...data.todos]] and the list.
    [None] is a thrown [TypeError]: [data] is [undefined], or [data.todos]
    is not an array. *)
Definition App (h : Heap) (q : QueryHook) : option (AppView * Heap) :=
  if loading q then Some (LoadingView, h)
  else match error q with
       | Some e => Some (ErrorView (message e), h)
       | None =>
           match data q with
           | Some data_todos =>
               match App_render h data_todos with
               | Some (items, h') => Some (TodoPage items, h')
               | None => None
               end
           | None => None
           end
       end.

(** ** Sample data *)

Definition milk : Todo := mkTodo "1" "buy milk" false.
Definition todo_a : Todo := mkTodo "1" "a" false.
Definition todo_b : Todo := mkTodo "2" "b" true.
Definition todo_c : Todo := mkTodo "3" "c" false.

(** The cache before the list query has resolved. *)
Definition no_result : Cache := mkCache None [].

(** A cache just populated with [X] by the list query. *)
Definition cache_of (X : list Todo) : Cache :=
  mkCache (Some (mkQueryResult X)) [].

(** * Properties *)

(** ** Running the reconcilers *)

Lemma addTodo_update_run (c : Cache) (e : Todo) :
  addTodo_update (mkAddTodoData e) c =
  (tt, match stored c with
       | Some q =>
           mkCache (Some (mkQueryResult (todos q ++ [e])))
                   (writes c ++ [mkWriteData (Some (todos q ++ [e]))])
       | None => mkCache None (writes c ++ [mkWriteData None])
       end).
Proof.
  unfold addTodo_update, upd_bind, readQuery, writeQuery.
  destruct (stored c) as [q|] eqn:Hq; simpl; rewrite ?Hq; reflexivity.
Qed.

Lemma deleteTodo_update_run (c : Cache) (d : string) :
  deleteTodo_update (mkDeleteTodoData d) c =
  (tt, match stored c with
       | Some q =>
           let Y := filter (λ t, id t ≠ d) (todos q) in
           mkCache (Some (mkQueryResult Y)) (writes c ++ [mkWriteData (Some Y)])
       | None => mkCache None (writes c ++ [mkWriteData None])
       end).
Proof.
  unfold deleteTodo_update, upd_bind, readQuery, writeQuery.
  destruct (stored c) as [q|] eqn:Hq; simpl; rewrite ?Hq; reflexivity.
Qed.

Lemma editTodo_update_run (c : Cache) (r : EditTodoData) :
  editTodo_update r c =
  (tt, let X := default [] (todos <$> stored c) in
       mkCache (Some (mkQueryResult X)) (writes c ++ [mkWriteData (Some X)])).
Proof. reflexivity. Qed.

Lemma exec_seq {A B} (m : Upd A) (k : Upd B) (c : Cache) :
  exec (m ;;; k) c = exec k (exec m c).
Proof. unfold exec, upd_bind. by destruct (m c). Qed.

Lemma exec_deleteTodo_update (c : Cache) (d : string) :
  exec (deleteTodo_update (mkDeleteTodoData d)) c =
  match stored c with
  | Some q =>
      mkCache (Some (mkQueryResult (filter (λ t, id t ≠ d) (todos q))))
              (writes c ++ [mkWriteData (Some (filter (λ t, id t ≠ d) (todos q)))])
  | None => mkCache None (writes c ++ [mkWriteData None])
  end.
Proof. unfold exec. by rewrite deleteTodo_update_run. Qed.

Lemma last_write_snoc (s : option QueryResult) (ws : list WriteData) (d : WriteData) :
  last_write (mkCache s (ws ++ [d])) = Some d.
Proof. unfold last_write; simpl. apply last_snoc. Qed.

Lemma addTodo_updates_established (es : list Todo) :
  ∀ X c, established X c → established (X ++ es) (exec (addTodo_updates es) c).
Proof.
  induction es as [|e es IH]; intros X c HX.
  - rewrite app_nil_r. exact HX.
  - unfold exec in *. simpl. unfold upd_bind at 1.
    rewrite addTodo_update_run, HX. simpl.
    rewrite (assoc_L _ X [e] es : X ++ e :: es = (X ++ [e]) ++ es).
    apply IH. reflexivity.
Qed.

(** A sequence that keeps the order of [X] and holds only entities
    satisfying [P] is kept whole by the filter. *)
Lemma sublist_filter_max {A} (P : A → Prop) `{!∀ x, Decision (P x)}
  (Z X : list A) :
  sublist Z X → Forall P Z → sublist Z (filter P X).
Proof.
  induction 1 as [|x Z X _ IH|x Z X _ IH]; intros HZ.
  - constructor.
  - inversion HZ; subst. rewrite filter_cons_True by assumption.
    constructor. auto.
  - rewrite filter_cons. destruct (decide (P x)); [constructor|]; auto.
Qed.

Lemma filter_all {A} (P : A → Prop) `{!∀ x, Decision (P x)} (X : list A) :
  Forall P X → filter P X = X.
Proof.
  induction 1 as [|x X Hx _ IH]; [reflexivity|].
  rewrite filter_cons_True by assumption. by rewrite IH.
Qed.

(** ** C1: insert on success *)

(** C1. On a cache established with the sequence [X], the add reconciler
    run with the entity [e] hands [X ++ [e]] to [writeQuery] and leaves the
    cache established with it. Run once per entity of [es], in order, it
    leaves the cache established with [X ++ es]: the length is the starting
    length plus the number of inserts and the inserted entities are the
    tail, in insertion order. (Distinct identifiers are not needed.) *)
Theorem insert_on_success_appends (X : list Todo) (c : Cache) (e : Todo)
  (es : list Todo) :
  established X c →
  (last_write (exec (addTodo_update (mkAddTodoData e)) c)
     = Some (mkWriteData (Some (X ++ [e])))
   ∧ established (X ++ [e]) (exec (addTodo_update (mkAddTodoData e)) c))
  ∧ ∃ Y, established Y (exec (addTodo_updates es) c)
         ∧ length Y = length X + length es
         ∧ take (length X) Y = X
         ∧ drop (length X) Y = es.
Proof.
  intros HX. split.
  - unfold exec. rewrite addTodo_update_run, HX. simpl.
    split; [apply last_write_snoc | reflexivity].
  - exists (X ++ es). split; [by apply addTodo_updates_established|].
    rewrite length_app, take_app_length, drop_app_length. done.
Qed.

Lemma insert_on_success_appends_witness :
  established [todo_a] (cache_of [todo_a])
  ∧ (last_write (exec (addTodo_update (mkAddTodoData todo_b)) (cache_of [todo_a]))
       = Some (mkWriteData (Some [todo_a; todo_b]))
     ∧ established [todo_a; todo_b]
         (exec (addTodo_update (mkAddTodoData todo_b)) (cache_of [todo_a])))
  ∧ ∃ Y, established Y (exec (addTodo_updates [todo_b; todo_c]) (cache_of [todo_a]))
         ∧ length Y = 1 + 2
         ∧ take 1 Y = [todo_a]
         ∧ drop 1 Y = [todo_b; todo_c].
Proof.
  split; [reflexivity|].
  exact (insert_on_success_appends [todo_a] (cache_of [todo_a]) todo_b
           [todo_b; todo_c] eq_refl).
Defined.

(** End-to-end scenario 1 of the specification, from an established empty
    cache. *)
Example scenario_insert_into_empty :
  stored (exec (addTodo_update (mkAddTodoData milk)) (cache_of []))
  = Some (mkQueryResult [milk]).
Proof. reflexivity. Qed.

(** ** C2: remove on success *)

(** C2. On a cache established with [X], the delete reconciler run for the
    identifier [d] hands to [writeQuery], and leaves established, a sequence
    [Y] that is a subsequence of [X] (relative order kept), holds no entity
    with identifier [d], and contains every subsequence of [X] free of [d]:
    it drops exactly the entities whose identifier is [d]. *)
Theorem remove_on_success_filters (X : list Todo) (c : Cache) (d : string) :
  established X c →
  ∃ Y, last_write (exec (deleteTodo_update (mkDeleteTodoData d)) c)
         = Some (mkWriteData (Some Y))
       ∧ established Y (exec (deleteTodo_update (mkDeleteTodoData d)) c)
       ∧ sublist Y X
       ∧ Forall (λ t, id t ≠ d) Y
       ∧ (∀ Z, sublist Z X → Forall (λ t, id t ≠ d) Z → sublist Z Y).
Proof.
  intros HX. exists (filter (λ t, id t ≠ d) X).
  unfold exec. rewrite deleteTodo_update_run, HX. simpl.
  split; [apply last_write_snoc|]. split; [reflexivity|].
  split; [apply sublist_filter|]. split.
  - apply Forall_forall. intros t Ht.
    by apply list_elem_of_filter in Ht as [? _].
  - intros Z HZ HF. by apply sublist_filter_max.
Qed.

Lemma remove_on_success_filters_witness :
  established [todo_a; todo_b] (cache_of [todo_a; todo_b])
  ∧ ∃ Y, last_write (exec (deleteTodo_update (mkDeleteTodoData "1"))
                       (cache_of [todo_a; todo_b]))
           = Some (mkWriteData (Some Y))
         ∧ established Y (exec (deleteTodo_update (mkDeleteTodoData "1"))
                            (cache_of [todo_a; todo_b]))
         ∧ sublist Y [todo_a; todo_b]
         ∧ Forall (λ t, id t ≠ "1") Y
         ∧ (∀ Z, sublist Z [todo_a; todo_b] → Forall (λ t, id t ≠ "1") Z →
                 sublist Z Y).
Proof.
  split; [reflexivity|].
  exact (remove_on_success_filters [todo_a; todo_b]
           (cache_of [todo_a; todo_b]) "1" eq_refl).
Defined.

(** End-to-end scenario 2 of the specification. *)
Example scenario_remove_present :
  stored (exec (deleteTodo_update (mkDeleteTodoData "1"))
            (cache_of [todo_a; todo_b]))
  = Some (mkQueryResult [todo_b]).
Proof. vm_compute. reflexivity. Qed.

(** End-to-end scenario 3 of the specification. *)
Example scenario_remove_absent :
  stored (exec (deleteTodo_update (mkDeleteTodoData "9")) (cache_of [todo_a]))
  = Some (mkQueryResult [todo_a]).
Proof. vm_compute. reflexivity. Qed.

(** ** C3: reconciling before the list query has resolved *)

(** The edit reconciler falls back to the empty sequence ([|| []]): with no
    result established it writes what it writes on an established empty
    sequence. *)
Lemma patch_on_cache_miss (c : Cache) (r : EditTodoData) :
  stored c = None →
  last_write (exec (editTodo_update r) c) = Some (mkWriteData (Some []))
  ∧ last_write (exec (editTodo_update r) (cache_of []))
    = Some (mkWriteData (Some [])).
Proof.
  intros Hc. unfold exec. rewrite !editTodo_update_run.
  cbv zeta. rewrite Hc. simpl.
  split; [apply last_write_snoc | reflexivity].
Qed.

(** With no result established the add and delete reconcilers have no such
    fallback: [query?.todos.concat(...)] and [query?.todos.filter(...)] are
    [undefined], and that is what [writeQuery] receives. *)
Lemma insert_remove_on_cache_miss (c : Cache) (e : Todo) (d : string) :
  stored c = None →
  last_write (exec (addTodo_update (mkAddTodoData e)) c)
    = Some (mkWriteData None)
  ∧ last_write (exec (deleteTodo_update (mkDeleteTodoData d)) c)
    = Some (mkWriteData None).
Proof.
  intros Hc. unfold exec.
  rewrite addTodo_update_run, deleteTodo_update_run, Hc. simpl.
  split; apply last_write_snoc.
Qed.

(** C3. The claim fails for insert and remove: run before any result is
    established, the add reconciler hands [undefined] to [writeQuery] and no
    result is established, whereas on an established empty sequence it
    writes the one-element sequence; the delete reconciler hands [undefined]
    where on an established empty sequence it writes the empty sequence.
    Only the edit reconciler writes the same value in both situations. *)
Theorem cache_miss_differs_from_empty :
  last_write (exec (addTodo_update (mkAddTodoData milk)) no_result)
    = Some (mkWriteData None)
  ∧ stored (exec (addTodo_update (mkAddTodoData milk)) no_result) = None
  ∧ last_write (exec (addTodo_update (mkAddTodoData milk)) (cache_of []))
    = Some (mkWriteData (Some [milk]))
  ∧ last_write (exec (deleteTodo_update (mkDeleteTodoData "1")) no_result)
    = Some (mkWriteData None)
  ∧ last_write (exec (deleteTodo_update (mkDeleteTodoData "1")) (cache_of []))
    = Some (mkWriteData (Some []))
  ∧ last_write (exec (editTodo_update (mkEditTodoData "1" true)) no_result)
    = last_write (exec (editTodo_update (mkEditTodoData "1" true)) (cache_of [])).
Proof. repeat split. Qed.

(** ** C4: patch on success *)

(** C4. On a cache established with [X], the edit reconciler hands [X]
    itself to [writeQuery], whatever the mutation answered: the written
    sequence has the length of [X], the identifiers of [X] in the same
    order, and every entity with the fields it had; the stored result is
    the one it was. *)
Theorem patch_on_success_rewrites_unchanged (X : list Todo) (c : Cache)
  (r : EditTodoData) :
  established X c →
  ∃ Y, last_write (exec (editTodo_update r) c) = Some (mkWriteData (Some Y))
       ∧ established Y (exec (editTodo_update r) c)
       ∧ Y = X
       ∧ length Y = length X
       ∧ id <$> Y = id <$> X
       ∧ stored (exec (editTodo_update r) c) = stored c.
Proof.
  intros HX. exists X. unfold exec. rewrite editTodo_update_run.
  cbv zeta. rewrite HX. simpl.
  split; [apply last_write_snoc | done].
Qed.

Lemma patch_on_success_rewrites_unchanged_witness :
  established [todo_a; todo_b] (cache_of [todo_a; todo_b])
  ∧ ∃ Y, last_write (exec (editTodo_update (mkEditTodoData "1" true))
                       (cache_of [todo_a; todo_b]))
           = Some (mkWriteData (Some Y))
         ∧ established Y (exec (editTodo_update (mkEditTodoData "1" true))
                            (cache_of [todo_a; todo_b]))
         ∧ Y = [todo_a; todo_b]
         ∧ length Y = 2
         ∧ id <$> Y = ["1"; "2"]
         ∧ stored (exec (editTodo_update (mkEditTodoData "1" true))
                     (cache_of [todo_a; todo_b]))
           = stored (cache_of [todo_a; todo_b]).
Proof.
  split; [reflexivity|].
  exact (patch_on_success_rewrites_unchanged [todo_a; todo_b]
           (cache_of [todo_a; todo_b]) (mkEditTodoData "1" true) eq_refl).
Defined.

(** ** C5: removal is idempotent *)

(** C5. Running the delete reconciler for [d] a second time changes neither
    the stored result nor the value handed to [writeQuery]: twice is the
    same as once, from every cache. *)
Theorem remove_on_success_idempotent (c : Cache) (d : string) :
  stored (exec (deleteTodo_update (mkDeleteTodoData d) ;;;
                deleteTodo_update (mkDeleteTodoData d)) c)
    = stored (exec (deleteTodo_update (mkDeleteTodoData d)) c)
  ∧ last_write (exec (deleteTodo_update (mkDeleteTodoData d) ;;;
                      deleteTodo_update (mkDeleteTodoData d)) c)
    = last_write (exec (deleteTodo_update (mkDeleteTodoData d)) c).
Proof.
  rewrite exec_seq, (exec_deleteTodo_update c).
  destruct (stored c) as [[X]|]; rewrite exec_deleteTodo_update; simpl.
  - rewrite (filter_all _ (filter _ X)).
    + rewrite !last_write_snoc. done.
    + apply Forall_forall. intros t Ht.
      by apply list_elem_of_filter in Ht as [? _].
  - rewrite !last_write_snoc. done.
Qed.

(** ** C6: removing an absent identifier *)

(** C6. On a cache established with [X], when [d] is the identifier of no
    entity of [X], the delete reconciler hands [X] itself to [writeQuery]
    and leaves the cache established with [X]. *)
Theorem remove_absent_is_identity (X : list Todo) (c : Cache) (d : string) :
  established X c →
  d ∉ (id <$> X) →
  last_write (exec (deleteTodo_update (mkDeleteTodoData d)) c)
    = Some (mkWriteData (Some X))
  ∧ established X (exec (deleteTodo_update (mkDeleteTodoData d)) c).
Proof.
  intros HX Hd. unfold exec. rewrite deleteTodo_update_run, HX. simpl.
  rewrite filter_all.
  - split; [apply last_write_snoc | reflexivity].
  - apply Forall_forall. intros t Ht Heq. apply Hd. subst d.
    apply list_elem_of_fmap. eauto.
Qed.

Lemma remove_absent_is_identity_witness :
  established [todo_a] (cache_of [todo_a])
  ∧ ("9" ∉ (id <$> [todo_a]))
  ∧ last_write (exec (deleteTodo_update (mkDeleteTodoData "9")) (cache_of [todo_a]))
    = Some (mkWriteData (Some [todo_a]))
  ∧ established [todo_a]
      (exec (deleteTodo_update (mkDeleteTodoData "9")) (cache_of [todo_a])).
Proof.
  assert (Hd : "9" ∉ (id <$> [todo_a])).
  { intros H. apply list_elem_of_singleton in H. discriminate H. }
  split; [reflexivity|]. split; [exact Hd|].
  exact (remove_absent_is_identity [todo_a] (cache_of [todo_a]) "9" eq_refl Hd).
Defined.

(** ** C7: failed mutations *)

(** The mutate function, for any [update] callback. *)
Lemma mutate_Failure {R} (opts : MutationOptions R) (error : string)
  (c : Cache) :
  mutate opts (Failure error) c = (inl error, c).
Proof. reflexivity. Qed.

Lemma mutate_Success {R} (opts : MutationOptions R) (data : R) (c : Cache) :
  mutate opts (Success data) c = (inr data, exec (update opts data) c).
Proof.
  unfold mutate, exec, upd_bind, upd_ret.
  by destruct (update opts data c) as [[] c'].
Qed.

Lemma exec_settle (call : MutationCall) (o : Outcome (Payload call))
  (c : Cache) :
  exec (settle call o) c
  = match o with
    | Success data => exec (update (options_of call) data) c
    | Failure _ => c
    end.
Proof.
  unfold settle, exec, upd_bind, upd_ret. destruct o as [data|error].
  - rewrite mutate_Success. reflexivity.
  - rewrite mutate_Failure. reflexivity.
Qed.

(** Each of the three callbacks calls [writeQuery] exactly once. *)
Lemma update_writes_once (call : MutationCall) (data : Payload call)
  (c : Cache) :
  length (writes (exec (update (options_of call) data) c))
  = S (length (writes c)).
Proof.
  unfold exec. destruct call as [txt|i cpl|i]; cbn [Payload] in data;
    unfold options_of, addTodo_options, editTodo_options, deleteTodo_options;
    cbn [update].
  - destruct data as [e]. rewrite addTodo_update_run.
    destruct (stored c); simpl; rewrite length_app; simpl; lia.
  - rewrite editTodo_update_run. simpl. rewrite length_app. simpl. lia.
  - destruct data as [d]. rewrite deleteTodo_update_run.
    destruct (stored c); simpl; rewrite length_app; simpl; lia.
Qed.

Lemma failure_never_surfaced (call : MutationCall) : ¬ failure_surfaced call.
Proof.
  intros (failed & Hfail & Hok).
  specialize (Hfail no_result "").
  assert (data : Payload call).
  { destruct call; [exact (mkAddTodoData milk)
                   | exact (mkEditTodoData "1" true)
                   | exact (mkDeleteTodoData "1")]. }
  specialize (Hok no_result data).
  destruct (eval (settle call (Failure "")) no_result).
  destruct (eval (settle call (Success data)) no_result).
  congruence.
Qed.



(** ** C8: the display sort does not touch the cached sequence *)

Lemma fresh_ref_ne (h : Heap) (a : ref) (X : list Todo) :
  h !! a = Some X → fresh (dom h) ≠ a.
Proof.
  intros Ha Heq. apply (is_fresh (dom h)). rewrite Heq.
  apply elem_of_dom. eauto.
Qed.

(** What one render computes: the sorted copy sits at a fresh reference. *)
Lemma App_render_run (h : Heap) (a : ref) (X : list Todo) :
  h !! a = Some X →
  App_render h a
  = Some (render_item <$> Array_sort compareTodos X,
          <[fresh (dom h) := Array_sort compareTodos X]> h).
Proof.
  intros Ha. unfold App_render, spread. rewrite Ha. simpl.
  unfold TodoList, sort_in_place. rewrite lookup_insert_eq. simpl.
  rewrite lookup_insert_eq, insert_insert_eq. reflexivity.
Qed.

(** Without the copy, the sort of [TodoList] reorders the array it is
    given. *)
Lemma TodoList_sorts_its_argument (h : Heap) (a : ref) (X : list Todo) :
  h !! a = Some X →
  ∃ view h', TodoList h a = Some (view, h')
             ∧ h' !! a = Some (Array_sort compareTodos X).
Proof.
  intros Ha. unfold TodoList, sort_in_place. rewrite Ha. simpl.
  rewrite lookup_insert_eq. eexists _, _. split; [reflexivity|].
  apply lookup_insert_eq.
Qed.

(** C8. A render of [App] over the cached array, holding the sequence [X]
    at reference [a], succeeds and leaves [X] at [a]; the sort works on the
    copy made by the spread, and every array that existed before the render
    is as it was. *)
Theorem display_sort_leaves_cached_sequence (h : Heap) (a : ref)
  (X : list Todo) :
  h !! a = Some X →
  ∃ view h', App_render h a = Some (view, h')
             ∧ h' !! a = Some X
             ∧ view = render_item <$> Array_sort compareTodos X
             ∧ (∀ p, p ∈ dom h → h' !! p = h !! p).
Proof.
  intros Ha. eexists _, _. split; [by apply App_render_run|].
  split; [|split; [reflexivity|]].
  - rewrite lookup_insert_ne; [exact Ha | by eapply fresh_ref_ne].
  - intros p Hp. apply lookup_insert_ne. intros Heq.
    apply (is_fresh (dom h)). by rewrite Heq.
Qed.

Lemma display_sort_leaves_cached_sequence_witness :
  ({[ 1%positive := [todo_a; todo_b] ]} : Heap) !! 1%positive
    = Some [todo_a; todo_b]
  ∧ ∃ view h', App_render {[ 1%positive := [todo_a; todo_b] ]} 1%positive
                 = Some (view, h')
               ∧ h' !! 1%positive = Some [todo_a; todo_b]
               ∧ view = render_item <$> Array_sort compareTodos [todo_a; todo_b]
               ∧ (∀ p, p ∈ dom ({[ 1%positive := [todo_a; todo_b] ]} : Heap) →
                       h' !! p
                       = ({[ 1%positive := [todo_a; todo_b] ]} : Heap) !! p).
Proof.
  split; [reflexivity|].
  exact (display_sort_leaves_cached_sequence
           {[ 1%positive := [todo_a; todo_b] ]} 1%positive [todo_a; todo_b]
           eq_refl).
Defined.

(** ** C9: the toggle intent *)

(** C9. [onToggle i c] calls the edit mutation with the identifier [i] and
    the negation of [c]; so does the button rendered for any entity with
    identifier [i] and flag [c]. *)
Theorem onToggle_requests_negation (i : string) (c : bool) :
  onToggle i c = EditTodoCall i (negb c)
  ∧ (∀ label, item_onClick (render_item (mkTodo i label c))
              = EditTodoCall i (negb c)).
Proof. split; reflexivity. Qed.

Lemma render_item_onClick (t : Todo) :
  item_onClick (render_item t) = EditTodoCall (id t) (negb (completed t)).
Proof. reflexivity. Qed.

(** ** C10: the displayed order *)

Lemma compareTodos_zero (a b : Todo) :
  (compareTodos a b =? 0)%Z = bool_decide (completed a = completed b).
Proof. unfold compareTodos. by destruct (completed a), (completed b). Qed.

Lemma sort_insert_completed (x : Todo) (l : list Todo) :
  completed x = true → sort_insert compareTodos x l = x :: l.
Proof.
  intros Hx. destruct l as [|y l]; [reflexivity|]. simpl.
  unfold compareTodos. rewrite Hx. by destruct (completed y).
Qed.

Lemma sort_insert_pending (x : Todo) (cs ns : list Todo) :
  completed x = false →
  Forall (λ t, completed t = true) cs →
  Forall (λ t, completed t = false) ns →
  sort_insert compareTodos x (cs ++ ns) = cs ++ x :: ns.
Proof.
  intros Hx Hcs Hns. induction Hcs as [|y cs Hy _ IH]; simpl.
  - destruct Hns as [|y ns Hy _]; [reflexivity|]. simpl.
    unfold compareTodos. by rewrite Hx, Hy.
  - unfold compareTodos at 1. rewrite Hx, Hy. simpl. by rewrite IH.
Qed.

Lemma Forall_filter_self {A} (P : A → Prop) `{!∀ x, Decision (P x)}
  (l : list A) : Forall P (filter P l).
Proof.
  apply Forall_forall. intros x Hx. by apply list_elem_of_filter in Hx as [? _].
Qed.

Lemma Array_sort_compareTodos (l : list Todo) :
  Array_sort compareTodos l
  = filter (λ t, completed t = true) l ++ filter (λ t, completed t = false) l.
Proof.
  induction l as [|x l IH]; [reflexivity|]. simpl. rewrite IH.
  destruct (completed x) eqn:Hx.
  - rewrite sort_insert_completed by assumption.
    rewrite (filter_cons_True (λ t, completed t = true)) by assumption.
    rewrite (filter_cons_False (λ t, completed t = false)) by congruence.
    reflexivity.
  - rewrite sort_insert_pending by (assumption || apply Forall_filter_self).
    rewrite (filter_cons_False (λ t, completed t = true)) by congruence.
    rewrite (filter_cons_True (λ t, completed t = false)) by assumption.
    reflexivity.
Qed.


Example display_sort_sample :
  Array_sort compareTodos [todo_a; todo_b; todo_c; mkTodo "4" "d" true]
  = [todo_b; mkTodo "4" "d" true; todo_a; todo_c].
Proof. reflexivity. Qed.

(** * Further properties of the reconcilers *)

Lemma exec_reconcile_established (X : list Todo) (c : Cache)
  (r : Reconciliation) :
  established X c →
  exec (reconcile r) c
  = mkCache (Some (mkQueryResult (next_todos X r)))
            (writes c ++ [mkWriteData (Some (next_todos X r))]).
Proof.
  intros HX. unfold established in HX. unfold exec.
  destruct r as [[e]|r|[d]]; cbn [reconcile next_todos].
  - by rewrite addTodo_update_run, HX.
  - rewrite editTodo_update_run. cbv zeta. by rewrite HX.
  - by rewrite deleteTodo_update_run, HX.
Qed.

Lemma exec_reconcile_all_established (rs : list Reconciliation) :
  ∀ X c, established X c →
  stored (exec (reconcile_all rs) c)
    = Some (mkQueryResult (foldl next_todos X rs))
  ∧ length (writes (exec (reconcile_all rs) c))
    = length (writes c) + length rs.
Proof.
  induction rs as [|r rs IH]; intros X c HX.
  - split; [exact HX | cbn; lia].
  - simpl reconcile_all. rewrite exec_seq.
    rewrite (exec_reconcile_established X c r HX).
    destruct (IH (next_todos X r)
                (mkCache (Some (mkQueryResult (next_todos X r)))
                   (writes c ++ [mkWriteData (Some (next_todos X r))]))
                eq_refl) as [Hs Hw].
    split; [exact Hs|]. rewrite Hw. simpl. rewrite length_app. simpl. lia.
Qed.

Lemma foldl_next_todos_skip_edits (rs : list Reconciliation) :
  ∀ X, foldl next_todos X (filter (λ r, is_edit r = false) rs)
       = foldl next_todos X rs.
Proof.
  induction rs as [|r rs IH]; intros X; [reflexivity|].
  destruct r as [e|r|d].
  - rewrite filter_cons_True by reflexivity. simpl. apply IH.
  - rewrite filter_cons_False by (simpl; congruence). simpl. apply IH.
  - rewrite filter_cons_True by reflexivity. simpl. apply IH.
Qed.

Lemma filter_id_comm (d1 d2 : string) (X : list Todo) :
  filter (λ t, id t ≠ d2) (filter (λ t, id t ≠ d1) X)
  = filter (λ t, id t ≠ d1) (filter (λ t, id t ≠ d2) X).
Proof.
  rewrite !list_filter_filter. apply list_filter_iff. intros t. tauto.
Qed.

Lemma fresh_id_filter_all (X : list Todo) (d : string) :
  d ∉ (id <$> X) → filter (λ t, id t ≠ d) X = X.
Proof.
  intros Hd. apply filter_all, Forall_forall. intros t Ht Heq.
  apply Hd. subst d. apply list_elem_of_fmap. eauto.
Qed.

Lemma NoDup_ids_filter (P : Todo → Prop) `{!∀ t, Decision (P t)}
  (X : list Todo) :
  NoDup (id <$> X) → NoDup (id <$> filter P X).
Proof.
  intros Hnd. eapply sublist_NoDup; [exact Hnd | apply fmap_sublist, sublist_filter].
Qed.

Lemma length_filter_present_unique (X : list Todo) (d : string) :
  NoDup (id <$> X) → d ∈ (id <$> X) →
  S (length (filter (λ t, id t ≠ d) X)) = length X.
Proof.
  induction X as [|x X IH]; intros Hnd Hd.
  - by apply elem_of_nil in Hd.
  - rewrite fmap_cons in Hnd, Hd. apply NoDup_cons in Hnd as [Hx Hnd].
    destruct (decide (id x = d)) as [Heq|Hne].
    + rewrite filter_cons_False by (intros H; by apply H).
      subst d. by rewrite fresh_id_filter_all.
    + rewrite filter_cons_True by assumption. simpl. f_equal.
      apply IH; [assumption|].
      apply elem_of_cons in Hd as [Hd|Hd]; [congruence | assumption].
Qed.

(** X1. From an established cache, every history of successful mutations
    leaves the cache established, with the sequence obtained by applying the
    callbacks' array expressions in order, and hands exactly one [data]
    object to [writeQuery] per mutation. *)
Theorem reconcile_all_established (X : list Todo) (c : Cache)
  (rs : list Reconciliation) :
  established X c →
  established (foldl next_todos X rs) (exec (reconcile_all rs) c)
  ∧ length (writes (exec (reconcile_all rs) c))
    = length (writes c) + length rs.
Proof. intros HX. by apply exec_reconcile_all_established. Qed.

Lemma reconcile_all_established_witness :
  established [todo_a] (cache_of [todo_a])
  ∧ established [todo_b; todo_c]
      (exec (reconcile_all [AddSucceeded (mkAddTodoData todo_b);
                            EditSucceeded (mkEditTodoData "2" false);
                            DeleteSucceeded (mkDeleteTodoData "1");
                            AddSucceeded (mkAddTodoData todo_c)])
         (cache_of [todo_a]))
  ∧ length (writes
      (exec (reconcile_all [AddSucceeded (mkAddTodoData todo_b);
                            EditSucceeded (mkEditTodoData "2" false);
                            DeleteSucceeded (mkDeleteTodoData "1");
                            AddSucceeded (mkAddTodoData todo_c)])
         (cache_of [todo_a])))
    = 0 + 4.
Proof.
  split; [reflexivity|].
  exact (reconcile_all_established [todo_a] (cache_of [todo_a])
           [AddSucceeded (mkAddTodoData todo_b);
            EditSucceeded (mkEditTodoData "2" false);
            DeleteSucceeded (mkDeleteTodoData "1");
            AddSucceeded (mkAddTodoData todo_c)] eq_refl).
Defined.

(** X2. While no result is established, add and delete reconciliations
    never establish one: after any history of them the cache still has no
    result, and every [data] object they handed to [writeQuery] has
    [todos] undefined. *)
Theorem reconcile_all_cache_miss (c : Cache) (rs : list Reconciliation) :
  stored c = None →
  Forall (λ r, is_edit r = false) rs →
  stored (exec (reconcile_all rs) c) = None
  ∧ writes (exec (reconcile_all rs) c)
    = writes c ++ replicate (length rs) (mkWriteData None).
Proof.
  intros Hc Hrs. revert c Hc.
  induction Hrs as [|r rs Hr _ IH]; intros c Hc.
  - simpl. by rewrite app_nil_r.
  - simpl reconcile_all. rewrite exec_seq.
    assert (Hstep : exec (reconcile r) c
                    = mkCache None (writes c ++ [mkWriteData None])).
    { unfold exec. destruct r as [[e]|r|[d]]; cbn [reconcile].
      - by rewrite addTodo_update_run, Hc.
      - discriminate Hr.
      - by rewrite deleteTodo_update_run, Hc. }
    rewrite Hstep.
    destruct (IH (mkCache None (writes c ++ [mkWriteData None])) eq_refl)
      as [Hs Hw].
    split; [exact Hs|]. rewrite Hw. simpl. by rewrite <- app_assoc.
Qed.

Lemma reconcile_all_cache_miss_witness :
  stored no_result = None
  ∧ Forall (λ r, is_edit r = false)
      [AddSucceeded (mkAddTodoData milk); DeleteSucceeded (mkDeleteTodoData "1")]
  ∧ stored (exec (reconcile_all [AddSucceeded (mkAddTodoData milk);
                                 DeleteSucceeded (mkDeleteTodoData "1")])
              no_result) = None
  ∧ writes (exec (reconcile_all [AddSucceeded (mkAddTodoData milk);
                                 DeleteSucceeded (mkDeleteTodoData "1")])
              no_result)
    = [] ++ replicate 2 (mkWriteData None).
Proof.
  assert (H : Forall (λ r, is_edit r = false)
                [AddSucceeded (mkAddTodoData milk);
                 DeleteSucceeded (mkDeleteTodoData "1")]).
  { repeat constructor. }
  split; [reflexivity|]. split; [exact H|].
  exact (reconcile_all_cache_miss no_result _ eq_refl H).
Defined.

(** X3. From an established cache, edit reconciliations can be dropped from
    a history without changing the sequence the cache ends with. *)
Theorem edits_do_not_change_the_outcome (X : list Todo) (c : Cache)
  (rs : list Reconciliation) :
  established X c →
  stored (exec (reconcile_all (filter (λ r, is_edit r = false) rs)) c)
  = stored (exec (reconcile_all rs) c).
Proof.
  intros HX.
  destruct (exec_reconcile_all_established rs X c HX) as [-> _].
  destruct (exec_reconcile_all_established
              (filter (λ r, is_edit r = false) rs) X c HX) as [-> _].
  by rewrite foldl_next_todos_skip_edits.
Qed.

Lemma edits_do_not_change_the_outcome_witness :
  established [todo_a] (cache_of [todo_a])
  ∧ stored (exec (reconcile_all
                    (filter (λ r, is_edit r = false)
                       [EditSucceeded (mkEditTodoData "1" true);
                        AddSucceeded (mkAddTodoData todo_b)]))
              (cache_of [todo_a]))
    = stored (exec (reconcile_all
                      [EditSucceeded (mkEditTodoData "1" true);
                       AddSucceeded (mkAddTodoData todo_b)])
                (cache_of [todo_a])).
Proof.
  split; [reflexivity|].
  exact (edits_do_not_change_the_outcome [todo_a] (cache_of [todo_a])
           [EditSucceeded (mkEditTodoData "1" true);
            AddSucceeded (mkAddTodoData todo_b)] eq_refl).
Defined.

(** X4. Two delete reconciliations commute: the stored result does not
    depend on the order in which the two deletions were confirmed. *)
Theorem deletes_commute (c : Cache) (d1 d2 : string) :
  stored (exec (deleteTodo_update (mkDeleteTodoData d1) ;;;
                deleteTodo_update (mkDeleteTodoData d2)) c)
  = stored (exec (deleteTodo_update (mkDeleteTodoData d2) ;;;
                  deleteTodo_update (mkDeleteTodoData d1)) c).
Proof.
  rewrite !exec_seq, (exec_deleteTodo_update c d1), (exec_deleteTodo_update c d2).
  destruct (stored c) as [[X]|]; rewrite !exec_deleteTodo_update; simpl.
  - by rewrite filter_id_comm.
  - reflexivity.
Qed.

(** X5. On an established cache, adding an entity whose identifier is new
    and then deleting that identifier restores the sequence the cache
    held. *)
Theorem add_then_delete_restores (X : list Todo) (c : Cache) (e : Todo) :
  established X c →
  id e ∉ (id <$> X) →
  established X (exec (addTodo_update (mkAddTodoData e) ;;;
                       deleteTodo_update (mkDeleteTodoData (id e))) c).
Proof.
  intros HX He. rewrite exec_seq.
  rewrite (exec_reconcile_established X c (AddSucceeded (mkAddTodoData e)) HX
           : exec (addTodo_update (mkAddTodoData e)) c = _).
  rewrite exec_deleteTodo_update. simpl. unfold established. simpl.
  rewrite filter_app, fresh_id_filter_all by assumption.
  rewrite filter_cons_False by (intros H; by apply H).
  by rewrite filter_nil, app_nil_r.
Qed.

Lemma add_then_delete_restores_witness :
  established [todo_a] (cache_of [todo_a])
  ∧ (id todo_b ∉ (id <$> [todo_a]))
  ∧ established [todo_a]
      (exec (addTodo_update (mkAddTodoData todo_b) ;;;
             deleteTodo_update (mkDeleteTodoData (id todo_b)))
         (cache_of [todo_a])).
Proof.
  assert (Hb : id todo_b ∉ (id <$> [todo_a])).
  { intros H. apply list_elem_of_singleton in H. discriminate H. }
  split; [reflexivity|]. split; [exact Hb|].
  exact (add_then_delete_restores [todo_a] (cache_of [todo_a]) todo_b
           eq_refl Hb).
Defined.

(** ** Unique identifiers *)

Lemma sample_ids_unique : NoDup (id <$> [todo_a; todo_b]).
Proof.
  apply NoDup_cons. split; [|apply NoDup_singleton].
  intros H. apply list_elem_of_singleton in H. discriminate H.
Qed.

(** X6. Deleting keeps identifiers unique: from a cache established with a
    sequence without repeated identifiers, the delete reconciler leaves one
    without repeated identifiers, in which [d] does not occur. *)
Theorem delete_keeps_ids_unique (X : list Todo) (c : Cache) (d : string) :
  established X c →
  NoDup (id <$> X) →
  ∃ Y, established Y (exec (deleteTodo_update (mkDeleteTodoData d)) c)
       ∧ NoDup (id <$> Y)
       ∧ d ∉ (id <$> Y).
Proof.
  intros HX Hnd. exists (filter (λ t, id t ≠ d) X).
  rewrite exec_deleteTodo_update, HX. simpl.
  split; [reflexivity|]. split; [by apply NoDup_ids_filter|].
  intros Hd. apply list_elem_of_fmap in Hd as (t & -> & Ht).
  by apply list_elem_of_filter in Ht as [Hne _].
Qed.

Lemma delete_keeps_ids_unique_witness :
  established [todo_a; todo_b] (cache_of [todo_a; todo_b])
  ∧ NoDup (id <$> [todo_a; todo_b])
  ∧ ∃ Y, established Y (exec (deleteTodo_update (mkDeleteTodoData "2"))
                          (cache_of [todo_a; todo_b]))
         ∧ NoDup (id <$> Y)
         ∧ ("2" ∉ (id <$> Y)).
Proof.
  pose proof sample_ids_unique as Hnd.
  split; [reflexivity|]. split; [exact Hnd|].
  exact (delete_keeps_ids_unique [todo_a; todo_b] (cache_of [todo_a; todo_b])
           "2" eq_refl Hnd).
Defined.

(** X7. Adding does not de-duplicate: from a cache established with a
    sequence without repeated identifiers, the sequence left by the add
    reconciler is without repeated identifiers exactly when the identifier of
    the added entity did not occur before. *)
Theorem add_keeps_ids_unique_iff_new (X : list Todo) (c : Cache) (e : Todo) :
  established X c →
  NoDup (id <$> X) →
  ∃ Y, established Y (exec (addTodo_update (mkAddTodoData e)) c)
       ∧ (NoDup (id <$> Y) ↔ id e ∉ (id <$> X)).
Proof.
  intros HX Hnd. exists (X ++ [e]).
  rewrite (exec_reconcile_established X c (AddSucceeded (mkAddTodoData e)) HX
           : exec (addTodo_update (mkAddTodoData e)) c = _).
  split; [reflexivity|]. rewrite fmap_app, NoDup_app. simpl. split.
  - intros (_ & Hdisj & _) He. apply (Hdisj _ He). by left.
  - intros He. split; [assumption|]. split; [|apply NoDup_singleton].
    intros i Hi Hi'. apply list_elem_of_singleton in Hi'. by subst i.
Qed.

Lemma add_keeps_ids_unique_iff_new_witness :
  established [todo_a] (cache_of [todo_a])
  ∧ NoDup (id <$> [todo_a])
  ∧ ∃ Y, established Y (exec (addTodo_update (mkAddTodoData milk))
                          (cache_of [todo_a]))
         ∧ (NoDup (id <$> Y) ↔ id milk ∉ (id <$> [todo_a])).
Proof.
  assert (Hnd : NoDup (id <$> [todo_a])) by apply NoDup_singleton.
  split; [reflexivity|]. split; [exact Hnd|].
  exact (add_keeps_ids_unique_iff_new [todo_a] (cache_of [todo_a]) milk
           eq_refl Hnd).
Defined.

(** X8. With unique identifiers, deleting an identifier that occurs removes
    exactly one entity. *)
Theorem delete_present_removes_one (X : list Todo) (c : Cache) (d : string) :
  established X c →
  NoDup (id <$> X) →
  d ∈ (id <$> X) →
  ∃ Y, established Y (exec (deleteTodo_update (mkDeleteTodoData d)) c)
       ∧ S (length Y) = length X.
Proof.
  intros HX Hnd Hd. exists (filter (λ t, id t ≠ d) X).
  rewrite exec_deleteTodo_update, HX. simpl.
  split; [reflexivity | by apply length_filter_present_unique].
Qed.

Lemma delete_present_removes_one_witness :
  established [todo_a; todo_b] (cache_of [todo_a; todo_b])
  ∧ NoDup (id <$> [todo_a; todo_b])
  ∧ ("1" ∈ (id <$> [todo_a; todo_b]))
  ∧ ∃ Y, established Y (exec (deleteTodo_update (mkDeleteTodoData "1"))
                          (cache_of [todo_a; todo_b]))
         ∧ S (length Y) = 2.
Proof.
  pose proof sample_ids_unique as Hnd.
  assert (Hd : "1" ∈ (id <$> [todo_a; todo_b])) by (by left).
  split; [reflexivity|]. split; [exact Hnd|]. split; [exact Hd|].
  exact (delete_present_removes_one [todo_a; todo_b]
           (cache_of [todo_a; todo_b]) "1" eq_refl Hnd Hd).
Defined.

(** * Further properties of the display *)

Lemma filter_none {A} (P : A → Prop) `{!∀ x, Decision (P x)} (l : list A) :
  Forall (λ x, ¬ P x) l → filter P l = [].
Proof.
  induction 1 as [|x l Hx _ IH]; [reflexivity|].
  by rewrite filter_cons_False.
Qed.

Lemma filter_comm {A} (P Q : A → Prop)
  `{!∀ x, Decision (P x), !∀ x, Decision (Q x)} (l : list A) :
  filter P (filter Q l) = filter Q (filter P l).
Proof.
  rewrite !list_filter_filter. apply list_filter_iff. intros x. tauto.
Qed.

Lemma Array_sort_blocks (cs ns : list Todo) :
  Forall (λ t, completed t = true) cs →
  Forall (λ t, completed t = false) ns →
  Array_sort compareTodos (cs ++ ns) = cs ++ ns.
Proof.
  intros Hcs Hns. rewrite Array_sort_compareTodos, !filter_app.
  rewrite (filter_all _ cs Hcs), (filter_all _ ns Hns).
  rewrite (filter_none (λ t, completed t = true) ns),
          (filter_none (λ t, completed t = false) cs).
  - by rewrite app_nil_r.
  - eapply Forall_impl; [exact Hcs|]. simpl. intros t ->. discriminate.
  - eapply Forall_impl; [exact Hns|]. simpl. intros t ->. discriminate.
Qed.

Lemma Array_sort_compareTodos_perm (l : list Todo) :
  Array_sort compareTodos l ≡ₚ l.
Proof.
  rewrite Array_sort_compareTodos.
  rewrite <- (filter_app_complement (λ t, completed t = true) l) at 3.
  apply Permutation_app_head.
  erewrite list_filter_iff; [reflexivity|].
  intros t. simpl. by destruct (completed t).
Qed.

(** X9. Sorting for display is idempotent: a sequence already in display
    order is left as it is. *)
Theorem display_sort_idempotent (l : list Todo) :
  Array_sort compareTodos (Array_sort compareTodos l)
  = Array_sort compareTodos l.
Proof.
  rewrite (Array_sort_compareTodos l).
  apply Array_sort_blocks; apply Forall_filter_self.
Qed.

(** X10. Deleting does not reorder what is displayed: the display order of
    the sequence written by the delete reconciler is the display order of
    the old sequence with the entities of identifier [d] left out. *)
Theorem display_after_delete (X : list Todo) (d : string) :
  Array_sort compareTodos (next_todos X (DeleteSucceeded (mkDeleteTodoData d)))
  = filter (λ t, id t ≠ d) (Array_sort compareTodos X).
Proof.
  simpl. rewrite !Array_sort_compareTodos, filter_app.
  by rewrite !(filter_comm (λ t, id t ≠ d)).
Qed.

(** X11. Where an added entity is displayed: a non-completed one comes
    last, after everything displayed before; a completed one comes right
    after the completed entities and before all non-completed ones. *)
Theorem display_after_add (X : list Todo) (e : Todo) :
  Array_sort compareTodos (next_todos X (AddSucceeded (mkAddTodoData e)))
  = if completed e
    then filter (λ t, completed t = true) X
         ++ e :: filter (λ t, completed t = false) X
    else Array_sort compareTodos X ++ [e].
Proof.
  simpl. rewrite !Array_sort_compareTodos, !filter_app.
  destruct (completed e) eqn:He.
  - rewrite (filter_cons_True (λ t, completed t = true)) by assumption.
    rewrite (filter_cons_False (λ t, completed t = false)) by congruence.
    rewrite !filter_nil, app_nil_r, <- app_assoc. reflexivity.
  - rewrite (filter_cons_False (λ t, completed t = true)) by congruence.
    rewrite (filter_cons_True (λ t, completed t = false)) by assumption.
    rewrite !filter_nil, app_nil_r, <- app_assoc. reflexivity.
Qed.

(** X12. A render shows every cached entity exactly once: the rendered
    items are a permutation of the items of the cached sequence, one per
    entity. *)
Theorem render_shows_every_todo_once (h : Heap) (a : ref) (X : list Todo) :
  h !! a = Some X →
  ∃ view h', App_render h a = Some (view, h')
             ∧ view ≡ₚ render_item <$> X
             ∧ length view = length X.
Proof.
  intros Ha. eexists _, _. split; [by apply App_render_run|].
  split.
  - by rewrite Array_sort_compareTodos_perm.
  - by rewrite length_fmap, Array_sort_compareTodos_perm.
Qed.

Lemma render_shows_every_todo_once_witness :
  ({[ 1%positive := [todo_a; todo_b] ]} : Heap) !! 1%positive
    = Some [todo_a; todo_b]
  ∧ ∃ view h', App_render {[ 1%positive := [todo_a; todo_b] ]} 1%positive
                 = Some (view, h')
               ∧ view ≡ₚ render_item <$> [todo_a; todo_b]
               ∧ length view = 2.
Proof.
  split; [reflexivity|].
  exact (render_shows_every_todo_once
           {[ 1%positive := [todo_a; todo_b] ]} 1%positive [todo_a; todo_b]
           eq_refl).
Defined.

(** X13. Rendering again gives the same items: a second render over the
    heap left by the first one succeeds with the same view, and each render
    adds exactly one array of entities to the heap, the copy made by the
    spread. *)
Theorem render_again_same_view (h : Heap) (a : ref) (X : list Todo) :
  h !! a = Some X →
  ∃ view h1 h2, App_render h a = Some (view, h1)
                ∧ App_render h1 a = Some (view, h2)
                ∧ size h1 = S (size h)
                ∧ size h2 = S (size h1).
Proof.
  intros Ha.
  assert (Ha1 : (<[fresh (dom h) := Array_sort compareTodos X]> h) !! a
                = Some X).
  { rewrite lookup_insert_ne; [exact Ha | by eapply fresh_ref_ne]. }
  eexists _, _, _. split; [by apply App_render_run|].
  split; [by apply App_render_run|].
  split; apply map_size_insert_None, not_elem_of_dom, is_fresh.
Qed.

Lemma render_again_same_view_witness :
  ({[ 1%positive := [todo_a; todo_b] ]} : Heap) !! 1%positive
    = Some [todo_a; todo_b]
  ∧ ∃ view h1 h2,
      App_render {[ 1%positive := [todo_a; todo_b] ]} 1%positive
        = Some (view, h1)
      ∧ App_render h1 1%positive = Some (view, h2)
      ∧ size h1 = S (size ({[ 1%positive := [todo_a; todo_b] ]} : Heap))
      ∧ size h2 = S (size h1).
Proof.
  split; [reflexivity|].
  exact (render_again_same_view
           {[ 1%positive := [todo_a; todo_b] ]} 1%positive [todo_a; todo_b]
           eq_refl).
Defined.

(** * The [App] component *)

(** X14. [App] shows the list only when the query is neither loading nor
    failed and has data: the page is then the display of the array
    [data.todos]. *)
Theorem App_shows_list_only_with_data (h h' : Heap) (q : QueryHook)
  (items : list ListItem) :
  App h q = Some (TodoPage items, h') →
  loading q = false
  ∧ error q = None
  ∧ ∃ a X, data q = Some a
           ∧ h !! a = Some X
           ∧ items = render_item <$> Array_sort compareTodos X.
Proof.
  unfold App. destruct (loading q); [discriminate|].
  destruct (error q); [discriminate|].
  destruct (data q) as [a|]; [|discriminate].
  destruct (h !! a) as [X|] eqn:Ha.
  - rewrite (App_render_run h a X Ha). intros [= <- <-]. eauto 10.
  - unfold App_render, spread. rewrite Ha. discriminate.
Qed.

Lemma App_shows_list_only_with_data_witness :
  App {[ 1%positive := [todo_a; todo_b] ]}
      (mkQueryHook false None (Some 1%positive))
  = Some (TodoPage (render_item <$> [todo_b; todo_a]),
          <[ 2%positive := [todo_b; todo_a] ]>
            {[ 1%positive := [todo_a; todo_b] ]})
  ∧ loading (mkQueryHook false None (Some 1%positive)) = false
  ∧ error (mkQueryHook false None (Some 1%positive)) = None
  ∧ ∃ a X, data (mkQueryHook false None (Some 1%positive)) = Some a
           ∧ ({[ 1%positive := [todo_a; todo_b] ]} : Heap) !! a = Some X
           ∧ render_item <$> [todo_b; todo_a]
             = render_item <$> Array_sort compareTodos X.
Proof.
  assert (H : App {[ 1%positive := [todo_a; todo_b] ]}
                (mkQueryHook false None (Some 1%positive))
              = Some (TodoPage (render_item <$> [todo_b; todo_a]),
                      <[ 2%positive := [todo_b; todo_a] ]>
                        {[ 1%positive := [todo_a; todo_b] ]})).
  { vm_compute. reflexivity. }
  split; [exact H|].
  exact (App_shows_list_only_with_data _ _ _ _ H).
Defined.

(** X15. [App] throws exactly when the query is neither loading nor failed
    and there is nothing to spread: [data] is undefined, or [data.todos] is
    not an array. While loading or failed it never throws. *)
Theorem App_throws_iff (h : Heap) (q : QueryHook) :
  App h q = None
  ↔ loading q = false
    ∧ error q = None
    ∧ (data q = None ∨ ∃ a, data q = Some a ∧ h !! a = None).
Proof.
  unfold App. destruct (loading q).
  { split; [discriminate | by intros [? _]]. }
  destruct (error q).
  { split; [discriminate | by intros (_ & ? & _)]. }
  destruct (data q) as [a|].
  - destruct (h !! a) as [X|] eqn:Ha.
    + rewrite (App_render_run h a X Ha). split; [discriminate|].
      intros (_ & _ & [?|(a' & [= <-] & Ha')]); congruence.
    + unfold App_render, spread. rewrite Ha. simpl. split; [|done].
      intros _. eauto 10.
  - split; [|done]. intros _. eauto.
Qed.

(** X16. Whatever the state of the query, a render of [App] that returns
    leaves every array that existed before it as it was. *)
Theorem App_leaves_arrays_untouched (h h' : Heap) (q : QueryHook)
  (v : AppView) :
  App h q = Some (v, h') →
  ∀ p, p ∈ dom h → h' !! p = h !! p.
Proof.
  unfold App. destruct (loading q); [by intros [= <- <-]|].
  destruct (error q); [by intros [= <- <-]|].
  destruct (data q) as [a|]; [|discriminate].
  destruct (h !! a) as [X|] eqn:Ha.
  - rewrite (App_render_run h a X Ha). intros [= <- <-] p Hp.
    apply lookup_insert_ne. intros Heq.
    apply (is_fresh (dom h)). by rewrite Heq.
  - unfold App_render, spread. rewrite Ha. discriminate.
Qed.

Lemma App_leaves_arrays_untouched_witness :
  App {[ 1%positive := [todo_a; todo_b] ]}
      (mkQueryHook false None (Some 1%positive))
  = Some (TodoPage (render_item <$> [todo_b; todo_a]),
          <[ 2%positive := [todo_b; todo_a] ]>
            {[ 1%positive := [todo_a; todo_b] ]})
  ∧ 1%positive ∈ dom ({[ 1%positive := [todo_a; todo_b] ]} : Heap)
  ∧ (<[ 2%positive := [todo_b; todo_a] ]>
       {[ 1%positive := [todo_a; todo_b] ]} : Heap) !! 1%positive
    = ({[ 1%positive := [todo_a; todo_b] ]} : Heap) !! 1%positive.
Proof.
  assert (Hp : 1%positive ∈ dom ({[ 1%positive := [todo_a; todo_b] ]} : Heap)).
  { apply elem_of_dom. eexists. reflexivity. }
  assert (H : App {[ 1%positive := [todo_a; todo_b] ]}
                (mkQueryHook false None (Some 1%positive))
              = Some (TodoPage (render_item <$> [todo_b; todo_a]),
                      <[ 2%positive := [todo_b; todo_a] ]>
                        {[ 1%positive := [todo_a; todo_b] ]})).
  { vm_compute. reflexivity. }
  split; [exact H|]. split; [exact Hp|].
  exact (App_leaves_arrays_untouched _ _ _ _ H 1%positive Hp).
Defined.

(** * The input row *)

Section TodoActionsFacts.
Context {C : Type} (onAdd : string → C).

Lemma TodoActions_run_app (evs1 evs2 : list TodoActionsEvent) :
  ∀ text,
  TodoActions_run onAdd text (evs1 ++ evs2)
  = (fst (TodoActions_run onAdd text evs1)
       ++ fst (TodoActions_run onAdd
                 (snd (TodoActions_run onAdd text evs1)) evs2),
     snd (TodoActions_run onAdd
            (snd (TodoActions_run onAdd text evs1)) evs2)).
Proof.
  induction evs1 as [|ev evs1 IH]; intros text.
  - simpl. by destruct (TodoActions_run onAdd text evs2).
  - simpl. destruct (TodoActions_handle onAdd text ev) as [calls text'].
    rewrite IH. destruct (TodoActions_run onAdd text' evs1) as [calls1 text1].
    simpl. by rewrite app_assoc.
Qed.

(** X17. Every press of Add makes one call of [onAdd], whatever the input
    holds (an empty input included), and nothing else makes a call. *)
Theorem TodoActions_one_call_per_click (text : string)
  (evs : list TodoActionsEvent) :
  length (fst (TodoActions_run onAdd text evs))
  = length (filter (λ ev, is_click ev = true) evs).
Proof.
  revert text. induction evs as [|ev evs IH]; intros text; [reflexivity|].
  destruct ev as [value|].
  - rewrite filter_cons_False by (simpl; congruence).
    cbn [TodoActions_run TodoActions_handle].
    specialize (IH value). by destruct (TodoActions_run onAdd value evs).
  - rewrite filter_cons_True by reflexivity.
    cbn [TodoActions_run TodoActions_handle onAddItem].
    specialize (IH ""). destruct (TodoActions_run onAdd "" evs).
    simpl in *. by rewrite IH.
Qed.

(** X18. Typing [value] and pressing Add, after any session, calls [onAdd]
    with exactly [value] (untrimmed) and leaves the input empty. *)
Theorem TodoActions_type_then_add (text value : string)
  (evs : list TodoActionsEvent) :
  TodoActions_run onAdd text (evs ++ [Change value; ClickAdd])
  = (fst (TodoActions_run onAdd text evs) ++ [onAdd value], "").
Proof. by rewrite TodoActions_run_app. Qed.

(** X19. Pressing Add twice in a row calls [onAdd] a second time, with the
    empty text: the input is cleared by the first press and the second is
    not held back. *)
Theorem TodoActions_second_click_sends_empty (text : string)
  (evs : list TodoActionsEvent) :
  TodoActions_run onAdd text (evs ++ [ClickAdd; ClickAdd])
  = (fst (TodoActions_run onAdd text evs)
       ++ [onAdd (snd (TodoActions_run onAdd text evs)); onAdd ""],
     "").
Proof. by rewrite TodoActions_run_app. Qed.

End TodoActionsFacts.

(** * List item keys *)

Lemma dash_prefix_inj (s1 s2 r1 r2 : string) :
  dash_free s1 = true → dash_free s2 = true →
  s1 +:+ "-" +:+ r1 = s2 +:+ "-" +:+ r2 →
  s1 = s2.
Proof.
  revert s2. induction s1 as [|a s1 IH]; intros [|b s2] H1 H2 Heq;
    simpl in *.
  - reflexivity.
  - injection Heq as <- _. simpl in H2. discriminate H2.
  - injection Heq as -> _. simpl in H1. discriminate H1.
  - injection Heq as -> Heq.
    apply andb_true_iff in H1 as [_ H1]. apply andb_true_iff in H2 as [_ H2].
    f_equal. by apply IH.
Qed.

Lemma unique_ids_inj (X : list Todo) :
  NoDup (id <$> X) →
  ∀ x y, x ∈ X → y ∈ X → id x = id y → x = y.
Proof.
  induction X as [|z X IH]; intros Hnd x y Hx Hy Heq.
  - by apply elem_of_nil in Hx.
  - rewrite fmap_cons in Hnd. apply NoDup_cons in Hnd as [Hz Hnd].
    apply elem_of_cons in Hx as [->|Hx]; apply elem_of_cons in Hy as [->|Hy].
    + reflexivity.
    + exfalso. apply Hz. rewrite Heq. by apply list_elem_of_fmap_2.
    + exfalso. apply Hz. rewrite <- Heq. by apply list_elem_of_fmap_2.
    + by apply IH.
Qed.

(** X20. The keys of the rendered items are pairwise distinct whenever the
    identifiers of the entities are pairwise distinct and contain no ["-"],
    whatever [trim] does to the texts. *)
Theorem item_keys_unique (trim : string → string) (X : list Todo) :
  NoDup (id <$> X) →
  Forall (λ t, dash_free (id t) = true) X →
  NoDup (item_key trim <$> X).
Proof.
  intros Hnd Hdash. apply NoDup_fmap_2_strong; [|by eapply NoDup_fmap_1].
  intros x y Hx Hy Hkey. apply (unique_ids_inj X Hnd x y Hx Hy).
  rewrite Forall_forall in Hdash.
  eapply dash_prefix_inj; [by apply Hdash | by apply Hdash | exact Hkey].
Qed.

Lemma item_keys_unique_witness :
  NoDup (id <$> [todo_a; todo_b])
  ∧ Forall (λ t, dash_free (id t) = true) [todo_a; todo_b]
  ∧ NoDup (item_key (λ s, s) <$> [todo_a; todo_b]).
Proof.
  pose proof sample_ids_unique as Hnd.
  assert (Hd : Forall (λ t, dash_free (id t) = true) [todo_a; todo_b]).
  { repeat constructor. }
  split; [exact Hnd|]. split; [exact Hd|].
  exact (item_keys_unique (λ s, s) [todo_a; todo_b] Hnd Hd).
Defined.

(** Identifiers with a ["-"] can share a key with another identifier. *)
Example item_key_collision :
  item_key (λ s, s) (mkTodo "a-b" "c" false)
  = item_key (λ s, s) (mkTodo "a" "b-c" false).
Proof. reflexivity. Qed.
